(** * TaskScheduler: bounded-retry job wrapper over a scheduling library

    Shallow embedding of
    [apps/data-processing/src/schedulers/task_scheduler.py] and of
    [setup_logger] of [apps/data-processing/src/utils/logger.py].

    The class [TaskScheduler] registers interval jobs with a scheduling
    library and wraps every unit of work in a closure, [retryable_job],
    that reacts to a failure of the work by logging and by asking the
    library for a follow-up job.

    What is embedded from the source: the two job bodies ([retryable_job],
    [_run_async_job]), the registration [_add_job], [setup_schedules],
    [start], [shutdown], the derived ids and the log messages.

    What the source calls and does not contain is the scheduling
    library.  Its behaviour is written out as far as the source drives
    it: a job is checked against the signature of its callable when it is
    created; a scheduler that is not started keeps registrations pending;
    a started one puts them into the job store, which the constructor
    configures to be one that pickles its jobs; starting moves the pending
    registrations into the store; an entry fires only while the scheduler
    runs, as a call of its callable with its positional and keyword
    arguments. *)

From Stdlib Require Import ZArith String Ascii List Lia.
From stdpp Require Import base gmap strings pretty list fin_maps.

Open Scope Z_scope.

(** ** Python values that reach the wrapper *)

(** A raised object.  [except Exception] catches instances of [Exception]
    only; objects that derive from [BaseException] alone (interpreter exit,
    task cancellation) pass through it.  [exc_str] is what [f"{e}"] prints. *)
Record PyExc := mkExc {
  exc_is_Exception : bool;
  exc_str : string
}.

(** What [await coro_func()] did. *)
Inductive Outcome :=
| Returned
| Raised (e : PyExc).

(** A unit of work: a zero-argument coroutine function.  [co_ident] stands
    for the identity of the Python object, [co_name] for its [__name__];
    what a call does is decided by the outside world and reaches the
    wrappers as an [Outcome]. *)
Record Coro := mkCoro {
  co_ident : N;
  co_name : string
}.

(** ** The scheduling library's data *)

(** Triggers.  The source builds [IntervalTrigger(minutes=m)] and
    [IntervalTrigger(seconds=5)] only.  An interval is taken to be one
    the library can represent: for a number of minutes that carries the
    first fire time out of the range of [datetime], the constructor
    raises [OverflowError] before anything is registered.

    [DateTrigger] is the library's one-shot delayed trigger, the second
    kind of firing that the collaborator interface offers; the source
    never constructs it. *)
Inductive Trigger :=
| IntervalTrigger (minutes seconds : Z)
| DateTrigger (delay_seconds : Z).

(** Seconds from scheduling to the first fire. *)
Definition first_delay (t : Trigger) : Z :=
  match t with
  | IntervalTrigger m s => 60 * m + s
  | DateTrigger d => d
  end.

(** Next fire time after a fire at [previous]: an interval trigger always
    has one, a one-shot trigger has none. *)
Definition get_next_fire_time (t : Trigger) (previous : Z) : option Z :=
  match t with
  | IntervalTrigger m s => Some (previous + (60 * m + s))
  | DateTrigger _ => None
  end.

Definition one_shot (t : Trigger) : Prop :=
  ∀ previous, get_next_fire_time t previous = None.

Definition recurring (t : Trigger) : Prop :=
  ∀ previous, is_Some (get_next_fire_time t previous).

(** The callables handed to [add_job].  [RetryableJob] is the closure
    [retryable_job] with the variables it captures from [_add_job];
    [RunAsyncJob] is the static method [_run_async_job]. *)
Inductive JobFunc :=
| RetryableJob (coro_func : Coro) (job_id : string) (max_retries : Z)
               (kwargs : gmap string Z)
| RunAsyncJob.

(** A job: the arguments of [add_job] other than the id and
    [replace_existing]. *)
Record Job := mkJob {
  func : JobFunc;
  args : list Coro;
  kwargs : gmap string Z;
  trigger : Trigger
}.

Global Instance Coro_eq_dec : EqDecision Coro.
Proof. solve_decision. Defined.
Global Instance Trigger_eq_dec : EqDecision Trigger.
Proof. solve_decision. Defined.
Global Instance JobFunc_eq_dec : EqDecision JobFunc.
Proof. solve_decision. Defined.
Global Instance Job_eq_dec : EqDecision Job.
Proof. solve_decision. Defined.

(** ** The logger *)

Inductive Level := INFO | WARNING | ERROR.

Record LogRecord := mkLog {
  level : Level;
  msg : string
}.

(** ** State *)

Inductive SchedulerState := STATE_STOPPED | STATE_RUNNING.

(** A registration waiting for the scheduler to start: id, job and the
    [replace_existing] flag it was made with. *)
Definition Pending : Type := string * Job * bool.

(** The [TaskScheduler] object together with the module-level logger.
    [jobstore], [pending] and [state] belong to [self.scheduler]:
    the entries of its job store, the registrations made while it was not
    started, in the order they were made, and whether it runs.
    [running] is [self.running]; [log] collects the records emitted so
    far, oldest first. *)
Record World := mkWorld {
  jobstore : gmap string Job;
  pending : list Pending;
  state : SchedulerState;
  running : bool;
  log : list LogRecord
}.

(** [TaskScheduler.__init__]: an empty store, nothing pending, a
    scheduler that is not started, [self.running = False]. *)
Definition init : World :=
  {| jobstore := ∅; pending := []; state := STATE_STOPPED;
     running := false; log := [] |}.

Definition emit (l : Level) (m : string) (w : World) : World :=
  {| jobstore := jobstore w; pending := pending w; state := state w;
     running := running w; log := log w ++ [mkLog l m] |}.

Definition logger_info := emit INFO.
Definition logger_warning := emit WARNING.
Definition logger_error := emit ERROR.

Definition set_jobstore (js : gmap string Job) (w : World) : World :=
  {| jobstore := js; pending := pending w; state := state w;
     running := running w; log := log w |}.

Definition set_pending (ps : list Pending) (w : World) : World :=
  {| jobstore := jobstore w; pending := ps; state := state w;
     running := running w; log := log w |}.

Definition set_state (st : SchedulerState) (w : World) : World :=
  {| jobstore := jobstore w; pending := pending w; state := st;
     running := running w; log := log w |}.

(** How a call ends: it returns, or an exception leaves it. *)
Inductive Completion :=
| Normal (w : World)
| Propagates (e : PyExc) (w : World).

(** Sequencing of calls: an exception that leaves one call skips the rest. *)
Definition and_then (c : Completion) (k : World → Completion) : Completion :=
  match c with
  | Normal w => k w
  | Propagates e w => Propagates e w
  end.

Notation "c ;;; k" := (and_then c k) (at level 61, left associativity).

(** ** The scheduling library *)

(** The exceptions of the library and of the interpreter that the source
    can meet. *)
Definition ValueError_callable_args : PyExc :=
  mkExc true "ValueError: the arguments do not fit the target callable".
Definition ValueError_not_serializable : PyExc :=
  mkExc true "ValueError: this Job cannot be serialized".
Definition ConflictingIdError (id : string) : PyExc :=
  mkExc true ("Job identifier (" +:+ id +:+ ") conflicts with an existing job").
Definition SchedulerAlreadyRunningError : PyExc :=
  mkExc true "Scheduler is already running".
Definition SchedulerNotRunningError : PyExc :=
  mkExc true "Scheduler is not running".
Definition TypeError : PyExc := mkExc true "TypeError".
Definition AttributeError : PyExc := mkExc true "AttributeError".

(** Whether positional and keyword arguments fit the signature of a
    callable.  [retryable_job] is declared without parameters;
    [_run_async_job] is declared with the one parameter [coro_func], which
    a call binds by position or by keyword, and takes no other
    keyword. *)
Definition accepts_call (f : JobFunc) (args : list Coro)
    (kwargs : gmap string Z) : bool :=
  match f, args with
  | RetryableJob _ _ _ _, [] => bool_decide (kwargs = ∅)
  | RunAsyncJob, [_] => bool_decide (kwargs = ∅)
  | RunAsyncJob, [] => bool_decide (dom kwargs = {[ "coro_func" ]})
  | _, _ => false
  end.

(** Whether the job store can pickle a job.  A job needs a reference by
    which its callable can be imported again; a function nested in
    another one, as [retryable_job] is in [_add_job], has none.  The
    static method has one; its argument is taken to pickle. *)
Definition serializable (j : Job) : bool :=
  match func j with
  | RetryableJob _ _ _ _ => false
  | RunAsyncJob => true
  end.

(** Putting a job into the job store, which the constructor configures
    as [SQLAlchemyJobStore]: the job is pickled first; an occupied id is
    a conflict, resolved by overwriting when [replace_existing] is
    set. *)
Definition real_add_job (j : Job) (id : string) (replace_existing : bool)
    (w : World) : Completion :=
  if serializable j then
    match jobstore w !! id with
    | Some _ =>
        if replace_existing
        then Normal (set_jobstore (<[id := j]> (jobstore w)) w)
        else Propagates (ConflictingIdError id) w
    | None => Normal (set_jobstore (<[id := j]> (jobstore w)) w)
    end
  else Propagates ValueError_not_serializable w.

(** [scheduler.add_job(func, trigger=…, args=…, kwargs=…, id=…,
    replace_existing=…)].  The job is created first, and creating it
    checks the arguments against the callable.  A scheduler that is not
    started then keeps the registration pending, whatever is pending
    already; a started one puts the job into the store. *)
Definition scheduler_add_job (j : Job) (id : string) (replace_existing : bool)
    (w : World) : Completion :=
  if accepts_call (func j) (args j) (kwargs j) then
    match state w with
    | STATE_STOPPED =>
        Normal (set_pending (pending w ++ [(id, j, replace_existing)]) w)
    | STATE_RUNNING => real_add_job j id replace_existing w
    end
  else Propagates ValueError_callable_args w.

(** Moving pending registrations into the store, in order; the first
    one that fails ends it. *)
Fixpoint add_pending_jobs (ps : list Pending) (w : World) : Completion :=
  match ps with
  | [] => Normal w
  | (id, j, replace_existing) :: ps =>
      real_add_job j id replace_existing w ;;; add_pending_jobs ps
  end.

(** [scheduler.start()]: refused on a scheduler that runs; otherwise the
    pending registrations are moved into the store, the list of them is
    emptied and the scheduler runs.  When a registration fails, the list
    and the state stay as they are. *)
Definition scheduler_start (w : World) : Completion :=
  match state w with
  | STATE_RUNNING => Propagates SchedulerAlreadyRunningError w
  | STATE_STOPPED =>
      add_pending_jobs (pending w) w
      ;;; (λ w', Normal (set_state STATE_RUNNING (set_pending [] w')))
  end.

(** [scheduler.shutdown(wait=True)]: refused on a scheduler that does not
    run. *)
Definition scheduler_shutdown (w : World) : Completion :=
  match state w with
  | STATE_STOPPED => Propagates SchedulerNotRunningError w
  | STATE_RUNNING => Normal (set_state STATE_STOPPED w)
  end.

(** ** Derived ids and log messages *)

(** [f"{job_id}_{priority}"] *)
Definition main_id (job_id : string) (priority : Z) : string :=
  job_id +:+ "_" +:+ pretty priority.

(** [f"{job_id}_retry_{retry_count}"] *)
Definition retry_id (job_id : string) (retry_count : Z) : string :=
  job_id +:+ "_retry_" +:+ pretty retry_count.

(** [f"Job {job_id} failed on attempt {retry_count+1}: {e}"] *)
Definition msg_failed_attempt (job_id : string) (retry_count : Z) (e : PyExc)
    : string :=
  "Job " +:+ job_id +:+ " failed on attempt " +:+ pretty (retry_count + 1)
    +:+ ": " +:+ exc_str e.

(** [f"{job_id} failed after {max_retries} retries"] *)
Definition msg_failed_after (job_id : string) (max_retries : Z) : string :=
  job_id +:+ " failed after " +:+ pretty max_retries +:+ " retries".

(** [f"Error running job {coro_func.__name__}: {e}"] *)
Definition msg_error_running (coro_func : Coro) (e : PyExc) : string :=
  "Error running job " +:+ co_name coro_func +:+ ": " +:+ exc_str e.

(** ** The job bodies *)

(** [kwargs.get(key, default)] *)
Definition kwargs_get (kwargs : gmap string Z) (key : string) (dflt : Z) : Z :=
  default dflt (kwargs !! key).

(** The job that [retryable_job] asks for after a failure:
    [self._run_async_job], [args=[coro_func]],
    [trigger=IntervalTrigger(seconds=5)],
    [kwargs={"retry_count": retry_count + 1}]. *)
Definition retry_entry (coro_func : Coro) (retry_count : Z) : Job :=
  {| func := RunAsyncJob;
     args := [coro_func];
     kwargs := {[ "retry_count" := retry_count + 1 ]};
     trigger := IntervalTrigger 0 5 |}.

(** The closure [retryable_job] of [_add_job].  [o] is the outcome of
    [await coro_func()]. *)
Definition retryable_job (coro_func : Coro) (job_id : string) (max_retries : Z)
    (kwargs : gmap string Z) (o : Outcome) (w : World) : Completion :=
  let retry_count := kwargs_get kwargs "retry_count" 0 in
  match o with
  | Returned => Normal w
  | Raised e =>
      if exc_is_Exception e then
        let w1 := logger_warning (msg_failed_attempt job_id retry_count e) w in
        if retry_count <? max_retries then
          scheduler_add_job (retry_entry coro_func retry_count)
            (retry_id job_id retry_count) true w1
        else
          Normal (logger_error (msg_failed_after job_id max_retries) w1)
      else Propagates e w
  end.

(** The static method [_run_async_job]. *)
Definition _run_async_job (coro_func : Coro) (o : Outcome) (w : World)
    : Completion :=
  match o with
  | Returned => Normal w
  | Raised e =>
      if exc_is_Exception e then
        Normal (logger_error (msg_error_running coro_func e) w)
      else Propagates e w
  end.

(** ** Registration and life cycle *)

(** The job that [_add_job] registers: the closure, without arguments,
    on [IntervalTrigger(minutes=minutes)]. *)
Definition main_entry (coro_func : Coro) (minutes : Z) (job_id : string)
    (max_retries : Z) (kwargs : gmap string Z) : Job :=
  {| func := RetryableJob coro_func job_id max_retries kwargs;
     args := [];
     kwargs := ∅;
     trigger := IntervalTrigger minutes 0 |}.

(** [_add_job(coro_func, minutes=…, job_id=…, priority=5, max_retries=3,
    **kwargs)] *)
Definition _add_job (coro_func : Coro) (minutes : Z) (job_id : string)
    (priority : Z) (max_retries : Z) (kwargs : gmap string Z) (w : World)
    : Completion :=
  scheduler_add_job (main_entry coro_func minutes job_id max_retries kwargs)
    (main_id job_id priority) true w.

Definition default_priority : Z := 5.
Definition default_max_retries : Z := 3.

(** The four processors' coroutine methods handed over by the constructor. *)
Definition update_prices : Coro := mkCoro 1 "update_prices".
Definition fetch_crypto_news : Coro := mkCoro 2 "fetch_crypto_news".
Definition update_portfolio_values : Coro := mkCoro 3 "update_portfolio_values".
Definition monitor_network_metrics : Coro := mkCoro 4 "monitor_network_metrics".

(** [setup_schedules]: no call passes [priority], [max_retries] or any
    further keyword. *)
Definition setup_schedules (w : World) : Completion :=
  Normal (logger_info "Setting up scheduled tasks" w)
  ;;; _add_job update_prices 5 "update_prices"
        default_priority default_max_retries ∅
  ;;; _add_job fetch_crypto_news 30 "fetch_news"
        default_priority default_max_retries ∅
  ;;; _add_job update_portfolio_values 10 "update_portfolio"
        default_priority default_max_retries ∅
  ;;; _add_job monitor_network_metrics 5 "monitor_starknet"
        default_priority default_max_retries ∅.

(** [start] *)
Definition start (w : World) : Completion :=
  Normal (logger_info "Starting APScheduler" w)
  ;;; setup_schedules
  ;;; scheduler_start
  ;;; (λ w, Normal (logger_info "APScheduler started" w)).

(** [shutdown] *)
Definition shutdown (w : World) : Completion :=
  scheduler_shutdown w
  ;;; (λ w, Normal (logger_info "Shutting down APScheduler" w)).

(** ** Dispatch *)

(** Running a job: its callable applied to its positional and its
    keyword arguments.  Arguments that do not fit
    the signature end the call with [TypeError] before the body is
    entered.  [retryable_job] reads the [kwargs] of the enclosing
    [_add_job] call, not those of the job.  When [coro_func] is bound by
    keyword it is bound to an integer, the only kind of keyword value
    there is here: calling it fails inside the [try], and the handler
    fails in turn on [coro_func.__name__] before it logs. *)
Definition call_job (j : Job) (o : Outcome) (w : World) : Completion :=
  if accepts_call (func j) (args j) (kwargs j) then
    match func j, args j with
    | RetryableJob c jid mr kw, _ => retryable_job c jid mr kw o w
    | RunAsyncJob, [c] => _run_async_job c o w
    | RunAsyncJob, _ => Propagates AttributeError w
    end
  else Propagates TypeError w.

(** Bookkeeping of the store when an entry is handed to the executor: an
    entry whose trigger has no further fire time is removed. *)
Definition after_submit (id : string) (j : Job) (w : World) : World :=
  match get_next_fire_time (trigger j) 0 with
  | Some _ => w
  | None => set_jobstore (delete id (jobstore w)) w
  end.

(** One fire of the entry stored under [id], the work ending as [o].
    Only a scheduler that runs fires, and only entries of its store; the
    dispatch loop decides when an entry is due. *)
Definition fire (id : string) (o : Outcome) (w : World) : Completion :=
  match state w, jobstore w !! id with
  | STATE_RUNNING, Some j => call_job j o (after_submit id j w)
  | _, _ => Normal w
  end.

(** The world after a call, whichever way it ended. *)
Definition world_of (c : Completion) : World :=
  match c with
  | Normal w => w
  | Propagates _ w => w
  end.

Definition returns_normally (c : Completion) : bool :=
  match c with
  | Normal _ => true
  | Propagates _ _ => false
  end.

(** What can happen to a scheduler: a registration, or a fire. *)
Inductive Event :=
| EvAddJob (coro_func : Coro) (minutes : Z) (job_id : string)
           (priority max_retries : Z) (kwargs : gmap string Z)
| EvFire (id : string) (o : Outcome).

Definition step (w : World) (ev : Event) : World :=
  match ev with
  | EvAddJob c m jid p mr kw => world_of (_add_job c m jid p mr kw w)
  | EvFire id o => world_of (fire id o w)
  end.

Definition run (evs : list Event) (w : World) : World := foldl step w evs.

(** What a caller and the dispatch loop can do to a [TaskScheduler]:
    [start()], [shutdown()], a registration, or a fire. *)
Inductive Op :=
| OpStart
| OpShutdown
| OpEvent (ev : Event).

Definition exec (w : World) (op : Op) : World :=
  match op with
  | OpStart => world_of (start w)
  | OpShutdown => world_of (shutdown w)
  | OpEvent ev => step w ev
  end.

Definition exec_all (ops : list Op) (w : World) : World := foldl exec w ops.

(** ** Characters of strings *)

Definition chars (s : string) : list ascii := String.list_ascii_of_string s.

(** The characters [str] uses for an [int]: digits and the minus sign. *)
Definition is_decimal_char (c : ascii) : bool :=
  match c with
  | "0" | "1" | "2" | "3" | "4" | "5" | "6" | "7" | "8" | "9" | "-" => true
  | _ => false
  end%char.

Definition Contains (needle hay : string) : Prop :=
  ∃ a b, hay = a +:+ needle +:+ b.

(** ** Notions the properties are stated with *)


(** An interval schedule of a job id: a job whose callable is the
    wrapper closed over that [job_id]. *)
Definition schedule_of (job_id : string) (j : Job) : bool :=
  match func j with
  | RetryableJob _ jid _ _ => bool_decide (jid = job_id)
  | RunAsyncJob => false
  end.

Definition schedules_for (job_id : string) (w : World) : gmap string Job :=
  filter (λ kv, schedule_of job_id kv.2 = true) (jobstore w).

Definition pending_for (job_id : string) (w : World) : list Pending :=
  filter (λ p, schedule_of job_id p.1.2 = true) (pending w).

(** The number of schedules a job id has, stored and pending. *)
Definition registrations_for (job_id : string) (w : World) : nat :=
  (size (schedules_for job_id w) + length (pending_for job_id w))%nat.




(** An entry as the source builds and the library accepts them: on an
    interval trigger, with the positional arguments of its callable and
    no keyword. *)
Definition interval_triggered (j : Job) : bool :=
  match trigger j with
  | IntervalTrigger _ _ => true
  | DateTrigger _ => false
  end.

Definition positional_call (j : Job) : bool :=
  match func j, args j with
  | RetryableJob _ _ _ _, [] => bool_decide (kwargs j = ∅)
  | RunAsyncJob, [_] => bool_decide (kwargs j = ∅)
  | _, _ => false
  end.

Definition source_entry (j : Job) : bool :=
  interval_triggered j && positional_call j.

(** The fires of a list of (id, outcome) pairs, as events. *)
Definition fires (l : list (string * Outcome)) : list Event :=
  map (λ p, EvFire p.1 p.2) l.

(** [k] runs of a wrapper, one after the other, the work raising [e] in
    each. *)
Definition failing_runs (c : Coro) (jid : string) (mr : Z)
    (kw : gmap string Z) (e : PyExc) (k : nat) (w : World) : World :=
  Nat.iter k (λ w, world_of (retryable_job c jid mr kw (Raised e) w)) w.

(** The records that [k] failing runs of a wrapper past its retry bound
    write. *)
Fixpoint give_up_records (job_id : string) (max_retries rc : Z) (e : PyExc)
    (k : nat) : list LogRecord :=
  match k with
  | O => []
  | S k =>
      mkLog WARNING (msg_failed_attempt job_id rc e)
      :: mkLog ERROR (msg_failed_after job_id max_retries)
      :: give_up_records job_id max_retries rc e k
  end.

(** ** The jobs of [setup_schedules] *)

(** Work function, interval in minutes and job id of each registration. *)
Definition setup_jobs : list (Coro * Z * string) :=
  [ (update_prices, 5, "update_prices");
    (fetch_crypto_news, 30, "fetch_news");
    (update_portfolio_values, 10, "update_portfolio");
    (monitor_network_metrics, 5, "monitor_starknet") ].

(** The registrations that [setup_schedules] makes, in order. *)
Definition setup_registrations : list Pending :=
  map (λ '(c, m, jid),
         (main_id jid default_priority,
          main_entry c m jid default_max_retries ∅, true))
      setup_jobs.

(** ** Sample values for concrete runs *)

Definition boom : PyExc := mkExc true "boom".
Definition cancelled : PyExc := mkExc false "CancelledError".
Definition ping : Coro := mkCoro 7 "ping".

(** A scheduler that was never started: it is stopped, its store is
    empty and everything pending is a job the store cannot pickle. *)
Definition never_started (w : World) : Prop :=
  state w = STATE_STOPPED
  ∧ jobstore w = ∅
  ∧ Forall (λ p : Pending, serializable p.1.2 = false) (pending w).

(** * [utils/logger.py]: [setup_logger]

    [task_scheduler.py] obtains its module-level logger from
    [setup_logger(__name__)].  The function touches two pieces of
    process state: the file system (the [logs] directory and the log file
    in it) and the registry of loggers of the [logging] module. *)

Inductive FsNode := FsDir | FsFile.

Inductive HandlerKind :=
| FileHandler (filename : string)
| StreamHandler.

(** A handler with the level and the format string it was given. *)
Record Handler := mkHandler {
  h_kind : HandlerKind;
  h_level : Z;
  h_format : string
}.

Record Logger := mkLogger {
  lg_level : Z;
  lg_handlers : list Handler
}.

(** [loggers] holds the logger objects by the name they carry.  The
    root logger carries the name [root]; it is there from the start, and
    an environment that has no entry for it stands for one where it is
    as the module creates it. *)
Record LogEnv := mkLogEnv {
  fs : gmap string FsNode;
  loggers : gmap string Logger
}.

(** What [logger.setLevel(getattr(logging, NAME))] comes to for an
    upper-cased [NAME]: the module has an attribute of that name that
    [setLevel] accepts as level [z]; or it has none ([AttributeError]); or
    it has one that is no level and [setLevel] rejects it. *)
Inductive LevelLookup :=
| LevelOk (z : Z)
| LevelMissing
| LevelRejected.

(** The parts of the Python runtime that [setup_logger] relies on and
    the source tree does not contain: [str.upper] and the namespace of the
    [logging] module. *)
Class PyRuntime := {
  str_upper : string → string;
  logging_level : string → LevelLookup
}.

Definition logging_NOTSET : Z := 0.
Definition logging_DEBUG : Z := 10.
Definition logging_INFO : Z := 20.
Definition logging_WARNING : Z := 30.

Definition FileExistsError : PyExc := mkExc true "FileExistsError".
Definition IsADirectoryError : PyExc := mkExc true "IsADirectoryError".
Definition LevelError : PyExc := mkExc true "TypeError or ValueError".

(** How a call of [setup_logger] ends: it returns the logger (named by
    its key in the registry), or raises. *)
Inductive LogCompletion :=
| LReturn (logger : string) (env : LogEnv)
| LRaise (e : PyExc) (env : LogEnv).

Definition env_of (c : LogCompletion) : LogEnv :=
  match c with
  | LReturn _ env => env
  | LRaise _ env => env
  end.

(** [Path(p).mkdir(exist_ok=True)]: creates the directory; an existing
    directory is accepted, an existing file is not. *)
Definition mkdir_exist_ok (p : string) (env : LogEnv) : PyExc + LogEnv :=
  match fs env !! p with
  | None => inr {| fs := <[p := FsDir]> (fs env); loggers := loggers env |}
  | Some FsDir => inr env
  | Some FsFile => inl FileExistsError
  end.

Definition root_name : string := "root".

(** The logger object that [logging.getLogger(name)] stands for: the
    empty name and the name of the root logger both mean the root
    logger. *)
Definition logger_key (name : string) : string :=
  if bool_decide (name = EmptyString) then root_name else name.

(** A logger nobody has configured: no handlers; level [WARNING] for
    the root logger, [NOTSET] for any other. *)
Definition new_logger (key : string) : Logger :=
  mkLogger (if bool_decide (key = root_name) then logging_WARNING
            else logging_NOTSET) [].

(** [logging.getLogger(name)]: the logger object of that name, created
    and registered if there is none yet. *)
Definition getLogger (name : string) (env : LogEnv) : Logger * LogEnv :=
  let key := logger_key name in
  match loggers env !! key with
  | Some lg => (lg, env)
  | None =>
      let lg := new_logger key in
      (lg, {| fs := fs env; loggers := <[key := lg]> (loggers env) |})
  end.

(** Opening a file for appending, as the constructor of a file handler
    does: the file is created if it is not there; a directory cannot be
    opened. *)
Definition open_append (p : string) (env : LogEnv) : PyExc + LogEnv :=
  match fs env !! p with
  | Some FsDir => inl IsADirectoryError
  | _ => inr {| fs := <[p := FsFile]> (fs env); loggers := loggers env |}
  end.

(** A write to the logger object registered under [key]. *)
Definition set_logger (key : string) (lg : Logger) (env : LogEnv) : LogEnv :=
  {| fs := fs env; loggers := <[key := lg]> (loggers env) |}.

Definition log_dir : string := "logs".
Definition log_file : string := log_dir +:+ "/" +:+ "data_processing.log".

Definition file_handler : Handler :=
  mkHandler (FileHandler log_file) logging_DEBUG
    "%(asctime)s - %(name)s - %(levelname)s - %(message)s".

Definition console_handler : Handler :=
  mkHandler StreamHandler logging_INFO
    "%(levelname)s - %(name)s - %(message)s".

(** [setup_logger(name, log_level)] *)
Definition setup_logger `{PyRuntime} (name log_level : string) (env : LogEnv)
    : LogCompletion :=
  match mkdir_exist_ok log_dir env with
  | inl e => LRaise e env
  | inr env1 =>
      let '(logger, env2) := getLogger name env1 in
      let key := logger_key name in
      match logging_level (str_upper log_level) with
      | LevelMissing => LRaise AttributeError env2
      | LevelRejected => LRaise LevelError env2
      | LevelOk z =>
          let logger1 := mkLogger z (lg_handlers logger) in
          let env3 := set_logger key logger1 env2 in
          match lg_handlers logger1 with
          | _ :: _ => LReturn key env3
          | [] =>
              match open_append log_file env3 with
              | inl e => LRaise e env3
              | inr env4 =>
                  LReturn key
                    (set_logger key
                       (mkLogger z [file_handler; console_handler]) env4)
              end
          end
      end
  end.

(** The handlers of the logger that a name stands for; none if it was
    never asked for. *)
Definition handlers_of (env : LogEnv) (name : string) : list Handler :=
  from_option lg_handlers [] (loggers env !! logger_key name).

(** The level of the logger that a name stands for, once it is
    registered. *)
Definition level_of (env : LogEnv) (name : string) : option Z :=
  lg_level <$> loggers env !! logger_key name.

(** A sequence of calls [(name, log_level)], each started in the
    environment its predecessor left, whether that returned or raised. *)
Definition setup_loggers `{PyRuntime} (calls : list (string * string))
    (env : LogEnv) : LogEnv :=
  foldl (λ env c, env_of (setup_logger c.1 c.2 env)) env calls.

(** A runtime for concrete runs: upper-casing of ASCII letters and the
    level constants of the [logging] module. *)
Definition ascii_upper (c : ascii) : ascii :=
  let n := nat_of_ascii c in
  if (97 <=? n)%nat && (n <=? 122)%nat then ascii_of_nat (n - 32) else c.

Fixpoint ascii_str_upper (s : string) : string :=
  match s with
  | EmptyString => EmptyString
  | String c s => String (ascii_upper c) (ascii_str_upper s)
  end.

Definition level_constants (name : string) : LevelLookup :=
  if bool_decide (name = "CRITICAL") then LevelOk 50
  else if bool_decide (name = "FATAL") then LevelOk 50
  else if bool_decide (name = "ERROR") then LevelOk 40
  else if bool_decide (name = "WARNING") then LevelOk 30
  else if bool_decide (name = "WARN") then LevelOk 30
  else if bool_decide (name = "INFO") then LevelOk 20
  else if bool_decide (name = "DEBUG") then LevelOk 10
  else if bool_decide (name = "NOTSET") then LevelOk 0
  else if bool_decide (name = "BASIC_FORMAT") then LevelRejected
  else LevelMissing.

Definition sample_runtime : PyRuntime :=
  {| str_upper := ascii_str_upper; logging_level := level_constants |}.

(** A fresh process in an empty directory: only the root logger. *)
Definition empty_env : LogEnv :=
  {| fs := ∅; loggers := {[ root_name := new_logger root_name ]} |}.

(** * Strings: characters of the derived ids and of the log messages *)

Lemma chars_app (a b : string) : chars (a +:+ b) = chars a ++ chars b.
Proof.
  induction a as [|c a IH]; [reflexivity|].
  change (chars (String c (a +:+ b)) = c :: (chars a ++ chars b)).
  unfold chars in *. simpl. by rewrite IH.
Qed.

Lemma chars_inj (a b : string) : chars a = chars b → a = b.
Proof.
  intros H. unfold chars in H.
  rewrite <- (String.string_of_list_ascii_of_string a),
          <- (String.string_of_list_ascii_of_string b).
  by rewrite H.
Qed.

Lemma pretty_N_char_decimal (x : N) : is_decimal_char (pretty_N_char x) = true.
Proof. unfold pretty_N_char. by repeat case_match. Qed.

Lemma pretty_N_go_chars (x : N) (s : string) :
  ∃ ds, chars (pretty_N_go x s) = ds ++ chars s
        ∧ Forall (λ c, is_decimal_char c = true) ds
        ∧ ((0 < x)%N → ds ≠ []).
Proof.
  revert s. induction (N.lt_wf_0 x) as [x _ IH]; intros s.
  destruct (decide (x = 0%N)) as [->|Hx].
  - exists []. rewrite pretty_N_go_0. split_and!; [done|constructor|lia].
  - assert (0 < x)%N as Hpos by lia.
    rewrite pretty_N_go_step by done.
    destruct (IH (x `div` 10)%N (N.div_lt x 10 Hpos eq_refl)
                 (String (pretty_N_char (x `mod` 10)) s)) as (ds & Hds & Hall & _).
    exists (ds ++ [pretty_N_char (x `mod` 10)%N]). split_and!.
    + rewrite Hds. change (chars (String ?c ?t)) with (c :: chars t).
      by rewrite <- app_assoc.
    + apply Forall_app. split; [done|].
      constructor; [apply pretty_N_char_decimal|constructor].
    + intros _. by destruct ds.
Qed.

Lemma pretty_N_chars (x : N) :
  chars (pretty x) ≠ [] ∧ Forall (λ c, is_decimal_char c = true) (chars (pretty x)).
Proof.
  unfold pretty, pretty_N. case_decide as Hx.
  - split; [done|]. by repeat constructor.
  - destruct (pretty_N_go_chars x EmptyString) as (ds & Hds & Hall & Hne).
    rewrite Hds. change (chars EmptyString) with (@nil ascii).
    rewrite app_nil_r.
    split; [apply Hne; lia|done].
Qed.

Lemma pretty_Z_chars (z : Z) :
  chars (pretty z) ≠ [] ∧ Forall (λ c, is_decimal_char c = true) (chars (pretty z)).
Proof.
  destruct z as [|p|p]; unfold pretty, pretty_Z.
  - split; [done|]. by repeat constructor.
  - apply (pretty_N_chars (N.pos p)).
  - rewrite chars_app. split; [done|].
    apply Forall_app. split; [by repeat constructor|].
    apply (pretty_N_chars (N.pos p)).
Qed.

(** * Store ids *)

Lemma split_at_last {A} (sep : A) (l1 l2 d1 d2 : list A) :
  sep ∉ d1 → sep ∉ d2 →
  l1 ++ sep :: d1 = l2 ++ sep :: d2 →
  l1 = l2 ∧ d1 = d2.
Proof.
  intros H1 H2. revert l2.
  induction l1 as [|a l1 IH]; intros l2 H; destruct l2 as [|b l2]; simpl in H.
  - by injection H as ->.
  - exfalso. injection H as -> ->. apply H1, elem_of_app. right. by left.
  - exfalso. injection H as -> <-. apply H2, elem_of_app. right. by left.
  - injection H as -> H. by destruct (IH l2 H) as [-> ->].
Qed.

Lemma underscore_not_in_pretty (z : Z) : "_"%char ∉ chars (pretty z).
Proof.
  destruct (pretty_Z_chars z) as [_ Hall]. intros Hin.
  rewrite Forall_forall in Hall. by apply Hall in Hin.
Qed.

Lemma chars_main_id (j : string) (p : Z) :
  chars (main_id j p) = chars j ++ "_"%char :: chars (pretty p).
Proof. unfold main_id. by rewrite !chars_app. Qed.

Lemma chars_retry_id (j : string) (n : Z) :
  chars (retry_id j n)
  = chars (j +:+ "_retry") ++ "_"%char :: chars (pretty n).
Proof.
  unfold retry_id. rewrite !chars_app.
  change (chars "_retry_") with (chars "_retry" ++ ["_"%char]).
  by rewrite <- !app_assoc.
Qed.

Lemma split_at_underscore (a b : string) (x y : Z) :
  chars a ++ "_"%char :: chars (pretty x)
  = chars b ++ "_"%char :: chars (pretty y) →
  a = b ∧ x = y.
Proof.
  intros H.
  apply split_at_last in H as [Ha Hx]; [|apply underscore_not_in_pretty..].
  split; [by apply chars_inj|]. apply (inj pretty). by apply chars_inj.
Qed.

Lemma main_id_inj (j j' : string) (p p' : Z) :
  main_id j p = main_id j' p' → j = j' ∧ p = p'.
Proof.
  intros H. apply (f_equal chars) in H. rewrite !chars_main_id in H.
  by apply split_at_underscore.
Qed.

(** X6.  The derived ids can be read back.  Two registrations share a
    store id only if they agree on job id and priority, two retries only
    if they agree on job id and attempt number; and a schedule id
    coincides with a retry id exactly when the scheduled job's id is the
    other job's id followed by [_retry] and its priority is the attempt
    number. *)
Theorem store_ids_read_back (j j' : string) (p p' : Z) :
  (main_id j p = main_id j' p' → j = j' ∧ p = p')
  ∧ (retry_id j p = retry_id j' p' → j = j' ∧ p = p')
  ∧ (main_id j p = retry_id j' p' ↔ j = j' +:+ "_retry" ∧ p = p').
Proof.
  split_and!.
  - apply main_id_inj.
  - intros H. apply (f_equal chars) in H. rewrite !chars_retry_id in H.
    apply split_at_underscore in H as [H ->]. split; [|done].
    apply (f_equal chars) in H. rewrite !chars_app in H.
    apply app_inv_tail in H. by apply chars_inj.
  - split.
    + intros H. apply (f_equal chars) in H.
      rewrite chars_main_id, chars_retry_id in H.
      by apply split_at_underscore.
    + intros [-> ->]. apply chars_inj.
      by rewrite chars_main_id, chars_retry_id.
Qed.

(** * Strings, continued *)

Lemma append_assoc (a b c : string) : (a +:+ b) +:+ c = a +:+ b +:+ c.
Proof. apply chars_inj. by rewrite !chars_app, app_assoc. Qed.

Lemma append_empty_r (a : string) : a +:+ EmptyString = a.
Proof. apply chars_inj. rewrite chars_app. apply app_nil_r. Qed.

Lemma Contains_here (x b : string) : Contains x (x +:+ b).
Proof. by exists EmptyString, b. Qed.

Lemma Contains_app_l (x a h : string) : Contains x h → Contains x (a +:+ h).
Proof.
  intros (a' & b & ->). exists (a +:+ a'), b. by rewrite append_assoc.
Qed.

Lemma Contains_end (x a : string) : Contains x (a +:+ x).
Proof. exists a, EmptyString. by rewrite append_empty_r. Qed.

(** The attempt warning names the job, the attempt and the error. *)
Lemma msg_failed_attempt_contains (jid : string) (rc : Z) (e : PyExc) :
  Contains jid (msg_failed_attempt jid rc e)
  ∧ Contains (pretty (rc + 1)) (msg_failed_attempt jid rc e)
  ∧ Contains (exc_str e) (msg_failed_attempt jid rc e).
Proof.
  unfold msg_failed_attempt. split_and!.
  - apply Contains_app_l, Contains_here.
  - do 3 apply Contains_app_l. apply Contains_here.
  - do 4 apply Contains_app_l. apply Contains_end.
Qed.

(** * The library, case by case *)

(** The job that the wrapper asks for does not fit its callable:
    [_run_async_job] has no parameter [retry_count]. *)
Lemma retry_entry_not_accepted (c : Coro) (rc : Z) :
  accepts_call (func (retry_entry c rc)) (args (retry_entry c rc))
    (kwargs (retry_entry c rc)) = false.
Proof.
  simpl. apply bool_decide_eq_false. apply insert_non_empty.
Qed.

Lemma add_retry_entry_refused (c : Coro) (rc : Z) (id : string) (re : bool)
    (w : World) :
  scheduler_add_job (retry_entry c rc) id re w
  = Propagates ValueError_callable_args w.
Proof.
  unfold scheduler_add_job. by rewrite retry_entry_not_accepted.
Qed.

Lemma main_entry_accepted c m jid mr kw :
  accepts_call (func (main_entry c m jid mr kw))
    (args (main_entry c m jid mr kw)) (kwargs (main_entry c m jid mr kw))
  = true.
Proof. simpl. by apply bool_decide_eq_true. Qed.

(** Registering on a scheduler that is not started. *)
Lemma add_job_stopped c m jid p mr kw w :
  state w = STATE_STOPPED →
  _add_job c m jid p mr kw w
  = Normal (set_pending
              (pending w ++ [(main_id jid p, main_entry c m jid mr kw, true)])
              w).
Proof.
  intros Hs. unfold _add_job, scheduler_add_job.
  by rewrite main_entry_accepted, Hs.
Qed.

(** Registering on a scheduler that runs: the closure cannot be
    pickled. *)
Lemma add_job_running c m jid p mr kw w :
  state w = STATE_RUNNING →
  _add_job c m jid p mr kw w = Propagates ValueError_not_serializable w.
Proof.
  intros Hs. unfold _add_job, scheduler_add_job.
  by rewrite main_entry_accepted, Hs.
Qed.

Lemma call_main_entry c m jid mr kw o w :
  call_job (main_entry c m jid mr kw) o w = retryable_job c jid mr kw o w.
Proof. unfold call_job. by rewrite main_entry_accepted. Qed.

(** * The job bodies, case by case *)

Lemma retryable_job_refused c jid mr kw e w :
  exc_is_Exception e = true →
  kwargs_get kw "retry_count" 0 < mr →
  retryable_job c jid mr kw (Raised e) w
  = Propagates ValueError_callable_args
      (logger_warning
         (msg_failed_attempt jid (kwargs_get kw "retry_count" 0) e) w).
Proof.
  intros He Hlt. unfold retryable_job. rewrite He.
  apply Z.ltb_lt in Hlt. rewrite Hlt.
  apply add_retry_entry_refused.
Qed.

Lemma retryable_job_terminal c jid mr kw e w :
  exc_is_Exception e = true →
  mr ≤ kwargs_get kw "retry_count" 0 →
  retryable_job c jid mr kw (Raised e) w
  = Normal
      (logger_error (msg_failed_after jid mr)
         (logger_warning
            (msg_failed_attempt jid (kwargs_get kw "retry_count" 0) e) w)).
Proof.
  intros He Hge. unfold retryable_job. rewrite He.
  apply Z.ltb_ge in Hge. by rewrite Hge.
Qed.

Lemma retryable_job_passes c jid mr kw e w :
  exc_is_Exception e = false →
  retryable_job c jid mr kw (Raised e) w = Propagates e w.
Proof. intros He. unfold retryable_job. by rewrite He. Qed.

Lemma run_async_job_caught c e w :
  exc_is_Exception e = true →
  _run_async_job c (Raised e) w
  = Normal (logger_error (msg_error_running c e) w).
Proof. intros He. unfold _run_async_job. by rewrite He. Qed.

Lemma run_async_job_passes c e w :
  exc_is_Exception e = false →
  _run_async_job c (Raised e) w = Propagates e w.
Proof. intros He. unfold _run_async_job. by rewrite He. Qed.

(** No body changes what is registered, nor the flags: all a run can do
    to the world is append to the log. *)
Lemma retryable_job_frame c jid mr kw o w :
  let w' := world_of (retryable_job c jid mr kw o w) in
  jobstore w' = jobstore w ∧ pending w' = pending w
  ∧ state w' = state w ∧ running w' = running w
  ∧ log w `prefix_of` log w'.
Proof.
  destruct o as [|e]; [done|]. destruct (exc_is_Exception e) eqn:He.
  - destruct (decide (kwargs_get kw "retry_count" 0 < mr)).
    + rewrite retryable_job_refused by done. simpl.
      split_and!; [done..|]. by apply prefix_app_r.
    + rewrite retryable_job_terminal by (done || lia). simpl.
      split_and!; [done..|]. rewrite <- app_assoc. by apply prefix_app_r.
  - by rewrite retryable_job_passes.
Qed.

Lemma run_async_job_frame c o w :
  let w' := world_of (_run_async_job c o w) in
  jobstore w' = jobstore w ∧ pending w' = pending w
  ∧ state w' = state w ∧ running w' = running w
  ∧ log w `prefix_of` log w'.
Proof.
  destruct o as [|e]; [done|]. unfold _run_async_job.
  destruct (exc_is_Exception e); [|done]. simpl.
  split_and!; [done..|]. by apply prefix_app_r.
Qed.

Lemma call_job_frame (j : Job) (o : Outcome) (w : World) :
  let w' := world_of (call_job j o w) in
  jobstore w' = jobstore w ∧ pending w' = pending w
  ∧ state w' = state w ∧ running w' = running w
  ∧ log w `prefix_of` log w'.
Proof.
  unfold call_job. destruct (accepts_call _ _ _); [|done].
  destruct (func j) as [c jid mr kw|].
  - apply retryable_job_frame.
  - destruct (args j) as [|c [|??]]; [done| |done].
    apply run_async_job_frame.
Qed.

(** * A job whose work always fails *)

Lemma failing_runs_S c jid N kw e (k : nat) w :
  failing_runs c jid N kw e (S k) w
  = world_of (retryable_job c jid N kw (Raised e)
                (failing_runs c jid N kw e k w)).
Proof. reflexivity. Qed.

Lemma failing_runs_below_bound c jid N kw e (k : nat) w :
  exc_is_Exception e = true →
  kwargs_get kw "retry_count" 0 < N →
  let w' := failing_runs c jid N kw e k w in
  log w' = log w
           ++ repeat (mkLog WARNING
                        (msg_failed_attempt jid (kwargs_get kw "retry_count" 0) e))
                k
  ∧ jobstore w' = jobstore w ∧ pending w' = pending w
  ∧ state w' = state w ∧ running w' = running w.
Proof.
  intros He Hlt. induction k as [|k IH].
  - simpl. by rewrite app_nil_r.
  - destruct IH as (Hl & Hs & Hp & Hst & Hr). cbv zeta.
    rewrite failing_runs_S, retryable_job_refused by done. simpl.
    rewrite Hl, Hs, Hp, Hst, Hr. split_and!; [|done..].
    rewrite <- app_assoc. f_equal.
    by rewrite repeat_cons.
Qed.

(** ** C1 *)

(** C1. For a job registered with [max_retries = N] above the attempt
    number it reads, and a work that always raises, the code does this:
    every run of the wrapper logs the attempt warning and then leaves
    with the [ValueError] of [add_job], which refuses a job that passes
    [retry_count] to [_run_async_job(coro_func)].  No retry is stored or
    pending after any number [k] of failing runs, so none ever runs, and
    the log holds [k] warnings and no give-up record. *)
Theorem always_failing_work_is_never_retried c m jid N kw e (k : nat) w :
  exc_is_Exception e = true →
  kwargs_get kw "retry_count" 0 < N →
  let rc := kwargs_get kw "retry_count" 0 in
  let w' := failing_runs c jid N kw e k w in
  let w1 := failing_runs c jid N kw e (S k) w in
  (∀ o w0, call_job (main_entry c m jid N kw) o w0
           = retryable_job c jid N kw o w0)
  ∧ retryable_job c jid N kw (Raised e) w'
    = Propagates ValueError_callable_args w1
  ∧ log w1 = log w' ++ [mkLog WARNING (msg_failed_attempt jid rc e)]
  ∧ log w' = log w ++ repeat (mkLog WARNING (msg_failed_attempt jid rc e)) k
  ∧ jobstore w' = jobstore w
  ∧ pending w' = pending w
  ∧ state w' = state w
  ∧ running w' = running w
  ∧ (∀ r, r ∈ log w' → r ∈ log w ∨ level r = WARNING).
Proof.
  intros He Hlt rc w' w1.
  destruct (failing_runs_below_bound c jid N kw e k w He Hlt)
    as (Hl & Hs & Hp & Hst & Hrun'). fold rc w' in Hl, Hs, Hp, Hst, Hrun'.
  assert (retryable_job c jid N kw (Raised e) w'
          = Propagates ValueError_callable_args w1) as Hrun.
  { subst w1. rewrite failing_runs_S. fold w'.
    by rewrite retryable_job_refused. }
  split_and!; [|done|..|done|done|done|done|done|].
  - intros o w0. apply call_main_entry.
  - subst w1. rewrite failing_runs_S. fold w'.
    by rewrite retryable_job_refused.
  - intros r Hr. rewrite Hl in Hr.
    apply elem_of_app in Hr as [Hr|Hr]; [by left|right].
    apply list_elem_of_In, repeat_spec in Hr. by subst r.
Qed.

Lemma always_failing_work_is_never_retried_witness :
  let w' := failing_runs ping "ping" 1 ∅ boom 2 init in
  log w' = [ mkLog WARNING "Job ping failed on attempt 1: boom";
             mkLog WARNING "Job ping failed on attempt 1: boom" ]
  ∧ jobstore w' = ∅ ∧ pending w' = [].
Proof.
  assert (exc_is_Exception boom = true) as He by reflexivity.
  assert (kwargs_get ∅ "retry_count" 0 < 1) as Hlt by reflexivity.
  destruct (always_failing_work_is_never_retried ping 1 "ping" 1 ∅ boom 2
              init He Hlt) as (_ & _ & _ & Hl & Hs & Hp & _).
  split_and!; [exact Hl | exact Hs | exact Hp].
Defined.

(** * The retry request *)

Lemma interval_trigger_recurring (m s : Z) : recurring (IntervalTrigger m s).
Proof. intros previous. by eexists. Qed.

Lemma interval_trigger_not_one_shot (m s : Z) : ¬ one_shot (IntervalTrigger m s).
Proof. intros H. specialize (H 0). discriminate. Qed.

(** ** C2 *)

(** C2. When the work fails with the attempt number below
    [max_retries], the wrapper makes exactly one request to the library,
    after the warning: a job that runs the work through
    [_run_async_job], carries attempt + 1 as [retry_count], first fires
    after 5 seconds, under [{job_id}_retry_{attempt}] and with
    [replace_existing].  The request is refused, because the callable
    takes no [retry_count]: nothing is stored or pending, and the
    [ValueError] leaves the wrapper.  The trigger asked for is an
    interval trigger: recurring, not one-shot. *)
Theorem retry_request_is_refused c jid mr kw e w :
  exc_is_Exception e = true →
  kwargs_get kw "retry_count" 0 < mr →
  let rc := kwargs_get kw "retry_count" 0 in
  let w1 := logger_warning (msg_failed_attempt jid rc e) w in
  retryable_job c jid mr kw (Raised e) w
  = scheduler_add_job (retry_entry c rc) (retry_id jid rc) true w1
  ∧ scheduler_add_job (retry_entry c rc) (retry_id jid rc) true w1
    = Propagates ValueError_callable_args w1
  ∧ log w1 = log w ++ [mkLog WARNING (msg_failed_attempt jid rc e)]
  ∧ jobstore w1 = jobstore w
  ∧ pending w1 = pending w
  ∧ state w1 = state w
  ∧ running w1 = running w
  ∧ msg_failed_attempt jid rc e
    = "Job " +:+ jid +:+ " failed on attempt " +:+ pretty (rc + 1)
        +:+ ": " +:+ exc_str e
  ∧ retry_id jid rc = jid +:+ "_retry_" +:+ pretty rc
  ∧ func (retry_entry c rc) = RunAsyncJob
  ∧ args (retry_entry c rc) = [c]
  ∧ kwargs (retry_entry c rc) = {[ "retry_count" := rc + 1 ]}
  ∧ first_delay (trigger (retry_entry c rc)) = 5
  ∧ recurring (trigger (retry_entry c rc))
  ∧ ¬ one_shot (trigger (retry_entry c rc)).
Proof.
  intros He Hlt rc w1.
  assert (retryable_job c jid mr kw (Raised e) w
          = scheduler_add_job (retry_entry c rc) (retry_id jid rc) true w1)
    as Hreq.
  { unfold retryable_job. rewrite He.
    apply Z.ltb_lt in Hlt. by rewrite Hlt. }
  split_and!;
    [exact Hreq
    |apply add_retry_entry_refused
    |done..
    |apply interval_trigger_recurring
    |apply interval_trigger_not_one_shot].
Qed.

Lemma retry_request_is_refused_witness :
  retryable_job ping "ping" 3 ∅ (Raised boom) init
  = Propagates ValueError_callable_args
      (logger_warning (msg_failed_attempt "ping" 0 boom) init).
Proof.
  assert (exc_is_Exception boom = true) as He by reflexivity.
  assert (kwargs_get ∅ "retry_count" 0 < 3) as Hlt by reflexivity.
  destruct (retry_request_is_refused ping "ping" 3 ∅ boom init He Hlt)
    as (H1 & H2 & _).
  etrans; [exact H1|exact H2].
Defined.

(** * What the handlers catch *)

(** ** C3 *)

(** C3, as stated, fails: a work that exits with an object that is no
    [Exception] is not contained.  It leaves the wrapper, and nothing
    is logged or scheduled. *)
Lemma non_exception_leaves_the_wrapper :
  retryable_job ping "ping" 3 ∅ (Raised cancelled) init
  = Propagates cancelled init
  ∧ _run_async_job ping (Raised cancelled) init = Propagates cancelled init.
Proof. split; reflexivity. Qed.

(** C3 (amended). An exception raised by the work that is an instance of
    [Exception] is caught by the handler of the body that runs the work
    and logged.  [retryable_job] logs the attempt warning first; once the
    attempt number has reached [max_retries] it logs the give-up record
    and returns normally, with nothing else changed.  [_run_async_job]
    logs its error record and returns normally, with nothing else
    changed. *)
Theorem exception_is_caught_and_logged (e : PyExc) :
  exc_is_Exception e = true →
  (∀ c jid mr kw w,
     let rc := kwargs_get kw "retry_count" 0 in
     let w' := world_of (retryable_job c jid mr kw (Raised e) w) in
     (∃ rest, log w' = log w ++ mkLog WARNING (msg_failed_attempt jid rc e) :: rest)
     ∧ (mr ≤ rc →
        retryable_job c jid mr kw (Raised e) w = Normal w'
        ∧ log w' = log w ++ [ mkLog WARNING (msg_failed_attempt jid rc e);
                              mkLog ERROR (msg_failed_after jid mr) ]
        ∧ jobstore w' = jobstore w ∧ pending w' = pending w
        ∧ state w' = state w ∧ running w' = running w))
  ∧ (∀ c w,
       let w' := world_of (_run_async_job c (Raised e) w) in
       _run_async_job c (Raised e) w = Normal w'
       ∧ log w' = log w ++ [mkLog ERROR (msg_error_running c e)]
       ∧ jobstore w' = jobstore w ∧ pending w' = pending w
       ∧ state w' = state w ∧ running w' = running w).
Proof.
  intros He. split.
  - intros c jid mr kw w rc w'. subst w'. split.
    + destruct (decide (rc < mr)).
      * rewrite retryable_job_refused by done. by exists [].
      * rewrite retryable_job_terminal by (done || lia). simpl.
        eexists. by rewrite <- app_assoc.
    + intros Hge. rewrite retryable_job_terminal by done. simpl.
      split_and!; [done| |done..]. by rewrite <- app_assoc.
  - intros c w w'. subst w'. by rewrite run_async_job_caught.
Qed.

Lemma exception_is_caught_and_logged_witness :
  retryable_job ping "ping" 0 ∅ (Raised boom) init
  = Normal (world_of (retryable_job ping "ping" 0 ∅ (Raised boom) init))
  ∧ log (world_of (retryable_job ping "ping" 0 ∅ (Raised boom) init))
    = [ mkLog WARNING "Job ping failed on attempt 1: boom";
        mkLog ERROR "ping failed after 0 retries" ].
Proof.
  assert (exc_is_Exception boom = true) as He by reflexivity.
  destruct (exception_is_caught_and_logged boom He) as [H _].
  destruct (H ping "ping" 0 ∅ init) as [_ Hterm].
  destruct Hterm as (Hn & Hl & _); [reflexivity|].
  split; [exact Hn|exact Hl].
Defined.

(** * Registration *)

(** ** C4 *)

(** C4, as stated, fails: two registrations of one [job_id] under
    different priorities are filed under different ids, and the job id
    has two schedules. *)
Lemma reregistration_other_priority_keeps_both :
  let w := run [EvAddJob ping 1 "ping" 1 3 ∅;
                EvAddJob ping 2 "ping" 2 3 ∅] init in
  pending w = [ ("ping_1", main_entry ping 1 "ping" 3 ∅, true);
                ("ping_2", main_entry ping 2 "ping" 3 ∅, true) ]
  ∧ registrations_for "ping" w ≠ 1%nat.
Proof. split; [vm_compute; reflexivity|by vm_compute]. Qed.

(** C4 (amended). On a scheduler that is not started, registering the
    same [job_id] twice, with any two intervals, work functions and retry
    bounds, files both registrations, in the order made and each with
    [replace_existing], and leaves them pending; the job store and the
    log are not touched.  They are filed under the same id,
    [{job_id}_{priority}], exactly when the priorities are the same. *)
Theorem reregistration_files_under_one_id
    c1 m1 mr1 kw1 c2 m2 mr2 kw2 jid p1 p2 w :
  state w = STATE_STOPPED →
  let w2 := run [EvAddJob c1 m1 jid p1 mr1 kw1;
                 EvAddJob c2 m2 jid p2 mr2 kw2] w in
  pending w2
  = pending w ++ [ (main_id jid p1, main_entry c1 m1 jid mr1 kw1, true);
                   (main_id jid p2, main_entry c2 m2 jid mr2 kw2, true) ]
  ∧ jobstore w2 = jobstore w
  ∧ log w2 = log w
  ∧ state w2 = STATE_STOPPED
  ∧ running w2 = running w
  ∧ (main_id jid p1 = main_id jid p2 ↔ p1 = p2).
Proof.
  intros Hs w2. subst w2. simpl.
  rewrite (add_job_stopped c1) by done. simpl.
  rewrite (add_job_stopped c2) by done. simpl.
  split_and!; [by rewrite <- app_assoc|done..|].
  split; [|by intros ->].
  intros H. by apply main_id_inj in H as [_ ?].
Qed.

Lemma reregistration_files_under_one_id_witness :
  pending (run [EvAddJob ping 1 "ping" 5 3 ∅;
                EvAddJob ping 2 "ping" 5 3 ∅] init)
  = [ (main_id "ping" 5, main_entry ping 1 "ping" 3 ∅, true);
      (main_id "ping" 5, main_entry ping 2 "ping" 3 ∅, true) ].
Proof.
  assert (state init = STATE_STOPPED) as Hs by reflexivity.
  destruct (reregistration_files_under_one_id
              ping 1 3 ∅ ping 2 3 ∅ "ping" 5 5 init Hs) as [Hp _].
  exact Hp.
Defined.

(** * What stays out of the store *)

Lemma and_then_preserves (P : World → Prop) (c : Completion)
    (k : World → Completion) :
  P (world_of c) →
  (∀ w, P w → P (world_of (k w))) →
  P (world_of (c ;;; k)).
Proof. destruct c as [w|e w]; simpl; auto. Qed.











(** ** C7 *)


(** * Failure records *)

(** ** C8 *)

(** C8, as stated, fails: a work that exits with an object that is no
    [Exception] fails without any log line, and what it raised leaves the
    wrapper. *)
Lemma non_exception_failure_is_not_reported :
  let w := world_of (setup_schedules init) in
  let j := main_entry fetch_crypto_news 30 "fetch_news" 3 ∅ in
  let c := call_job j (Raised (mkExc false "SystemExit")) w in
  returns_normally c = false ∧ log (world_of c) = log w.
Proof. split; reflexivity. Qed.

(** C8 (amended). Every failure of the work that is an instance of
    [Exception] is reported by the wrapper, before it does anything
    else, through a warning that contains the job id, the attempt number
    and the text of the error; this includes the failure that ends in
    the give-up, whose record follows the warning. *)
Theorem exception_failure_is_reported c jid mr kw e w :
  exc_is_Exception e = true →
  let rc := kwargs_get kw "retry_count" 0 in
  let m := msg_failed_attempt jid rc e in
  log (world_of (retryable_job c jid mr kw (Raised e) w))
  = log w ++ mkLog WARNING m
             :: (if rc <? mr then []
                 else [mkLog ERROR (msg_failed_after jid mr)])
  ∧ m = "Job " +:+ jid +:+ " failed on attempt " +:+ pretty (rc + 1)
          +:+ ": " +:+ exc_str e
  ∧ Contains jid m
  ∧ Contains (pretty (rc + 1)) m
  ∧ Contains (exc_str e) m.
Proof.
  intros He rc m. split_and!; [|done|apply msg_failed_attempt_contains..].
  destruct (rc <? mr) eqn:Hlt.
  - apply Z.ltb_lt in Hlt. by rewrite retryable_job_refused.
  - apply Z.ltb_ge in Hlt. rewrite retryable_job_terminal by done.
    simpl. by rewrite <- app_assoc.
Qed.

Lemma exception_failure_is_reported_witness :
  log (world_of (retryable_job fetch_crypto_news "fetch_news" 3 ∅
                   (Raised boom) init))
  = [ mkLog WARNING "Job fetch_news failed on attempt 1: boom" ].
Proof.
  assert (exc_is_Exception boom = true) as He by reflexivity.
  destruct (exception_failure_is_reported fetch_crypto_news "fetch_news" 3 ∅
              boom init He) as [Hl _].
  exact Hl.
Defined.

(** * The body of [_run_async_job] *)

(** ** C9 *)



(** * The jobs of [setup_schedules] *)

Lemma setup_schedules_stopped (w : World) :
  state w = STATE_STOPPED →
  setup_schedules w
  = Normal
      (set_pending (pending w ++ setup_registrations)
         (logger_info "Setting up scheduled tasks" w)).
Proof.
  intros Hs. unfold setup_schedules. simpl.
  do 4 (rewrite add_job_stopped by done; simpl).
  unfold set_pending. simpl. by rewrite <- !app_assoc.
Qed.

(** ** C10 *)

(** C10. For each job of [setup_schedules]: it is registered with the
    empty keyword dictionary, so its wrapper reads attempt number 0; a
    run whose work raises logs "failed on attempt 1" and asks for the
    retry under the fixed id [{job_id}_retry_0].  The request is refused:
    the run ends with the [ValueError] of [add_job] and no retry is
    scheduled. *)
Theorem setup_jobs_read_attempt_zero c m jid e w :
  (c, m, jid) ∈ setup_jobs →
  exc_is_Exception e = true →
  let j := main_entry c m jid default_max_retries ∅ in
  let w' := world_of (call_job j (Raised e) w) in
  (main_id jid default_priority, j, true)
    ∈ pending (world_of (setup_schedules init))
  ∧ func j = RetryableJob c jid default_max_retries ∅
  ∧ kwargs_get ∅ "retry_count" 0 = 0
  ∧ call_job j (Raised e) w
    = scheduler_add_job (retry_entry c 0) (retry_id jid 0) true
        (logger_warning (msg_failed_attempt jid 0 e) w)
  ∧ call_job j (Raised e) w = Propagates ValueError_callable_args w'
  ∧ log w' = log w ++ [ mkLog WARNING
                          ("Job " +:+ jid +:+ " failed on attempt 1: "
                           +:+ exc_str e) ]
  ∧ jobstore w' = jobstore w
  ∧ pending w' = pending w
  ∧ state w' = state w
  ∧ running w' = running w
  ∧ retry_id jid 0 = jid +:+ "_retry_0".
Proof.
  intros Hin He j w'. subst j w'.
  assert (kwargs_get ∅ "retry_count" 0 < default_max_retries) as Hlt
    by reflexivity.
  rewrite !call_main_entry.
  rewrite retryable_job_refused by done.
  rewrite add_retry_entry_refused.
  split_and!; try done.
  rewrite setup_schedules_stopped by done. simpl.
  unfold setup_registrations. apply list_elem_of_fmap.
  by exists (c, m, jid).
Qed.

Lemma setup_jobs_read_attempt_zero_witness :
  call_job (main_entry fetch_crypto_news 30 "fetch_news" 3 ∅) (Raised boom)
    (world_of (setup_schedules init))
  = Propagates ValueError_callable_args
      (world_of (call_job (main_entry fetch_crypto_news 30 "fetch_news" 3 ∅)
                   (Raised boom) (world_of (setup_schedules init)))).
Proof.
  assert ((fetch_crypto_news, 30, "fetch_news") ∈ setup_jobs) as Hin
    by (unfold setup_jobs; set_solver).
  assert (exc_is_Exception boom = true) as He by reflexivity.
  destruct (setup_jobs_read_attempt_zero fetch_crypto_news 30 "fetch_news"
              boom (world_of (setup_schedules init)) Hin He)
    as (_ & _ & _ & _ & H & _).
  exact H.
Defined.

(** * Further properties of the scheduler *)

(** ** What the operations leave alone *)

Lemma add_job_frame c m jid p mr kw w :
  let w' := world_of (_add_job c m jid p mr kw w) in
  running w' = running w ∧ state w' = state w ∧ log w' = log w.
Proof.
  destruct (state w) eqn:Hs.
  - by rewrite add_job_stopped.
  - by rewrite add_job_running.
Qed.

Lemma add_job_running_flag c m jid p mr kw w :
  running (world_of (_add_job c m jid p mr kw w)) = running w.
Proof. by destruct (add_job_frame c m jid p mr kw w) as (? & _). Qed.

Lemma fire_frame id o w :
  let w' := world_of (fire id o w) in
  running w' = running w ∧ state w' = state w.
Proof.
  unfold fire. destruct (state w) eqn:Hs; [done|].
  destruct (jobstore w !! id) as [j|]; [|done].
  destruct (call_job_frame j o (after_submit id j w)) as (_ & _ & -> & -> & _).
  unfold after_submit. by destruct (get_next_fire_time _ _).
Qed.

Lemma step_frame (ev : Event) (w : World) :
  running (step w ev) = running w ∧ state (step w ev) = state w.
Proof.
  destruct ev as [c m jid p mr kw|id o]; simpl.
  - by destruct (add_job_frame c m jid p mr kw w) as (? & ? & _).
  - apply fire_frame.
Qed.

Lemma real_add_job_running j id re w :
  running (world_of (real_add_job j id re w)) = running w.
Proof.
  unfold real_add_job. destruct (serializable j); [|done].
  by destruct (jobstore w !! id); [destruct re|].
Qed.

Lemma add_pending_jobs_running ps w :
  running (world_of (add_pending_jobs ps w)) = running w.
Proof.
  revert w. induction ps as [|[[id j] re] ps IH]; intros w; [done|].
  simpl. pose proof (real_add_job_running j id re w) as Hr.
  destruct (real_add_job j id re w) as [w1|e w1]; simpl in *; [|done].
  by rewrite IH.
Qed.

Lemma exec_running (op : Op) (w : World) :
  running (exec w op) = running w.
Proof.
  destruct op as [| |ev]; simpl.
  - unfold start.
    apply (and_then_preserves (λ w', running w' = running w)); [|done].
    apply (and_then_preserves (λ w', running w' = running w)).
    + apply (and_then_preserves (λ w', running w' = running w)); [done|].
      intros w1 Hw1. unfold setup_schedules.
      do 4 (apply (and_then_preserves (λ w', running w' = running w));
            [|intros w2 Hw2; by rewrite add_job_running_flag]).
      exact Hw1.
    + intros w1 Hw1. unfold scheduler_start.
      destruct (state w1); [|done].
      pose proof (add_pending_jobs_running (pending w1) w1) as Hr.
      destruct (add_pending_jobs (pending w1) w1); simpl in *; congruence.
  - unfold shutdown, scheduler_shutdown. by destruct (state w).
  - by destruct (step_frame ev w).
Qed.

Lemma exec_all_running (ops : list Op) (w : World) :
  running (exec_all ops w) = running w.
Proof.
  revert w. induction ops as [|op ops IH]; intros w; [done|].
  simpl. rewrite IH. apply exec_running.
Qed.

(** X1.  [self.running] is written by [__init__] only: whatever is done
    to a scheduler, [start()] and [shutdown()] included, it is still
    [False]; and registrations and fires never change the state of the
    underlying scheduler, which only [start()] and [shutdown()] set. *)
Theorem running_flag_never_set (ops : list Op) :
  running (exec_all ops init) = false
  ∧ ∀ (w : World) (evs : list Event), state (run evs w) = state w.
Proof.
  split.
  - by rewrite exec_all_running.
  - intros w evs. revert w. induction evs as [|ev evs IH]; intros w; [done|].
    simpl. rewrite IH. by destruct (step_frame ev w).
Qed.

(** ** A scheduler that is never started *)

Lemma setup_registrations_unserializable :
  Forall (λ p : Pending, serializable p.1.2 = false) setup_registrations.
Proof. by repeat constructor. Qed.

(** The job store refuses the first pending closure. *)
Lemma add_pending_jobs_refused (ps : list Pending) (w : World) :
  Forall (λ p : Pending, serializable p.1.2 = false) ps →
  ps ≠ [] →
  add_pending_jobs ps w = Propagates ValueError_not_serializable w.
Proof.
  intros Hps Hne. destruct ps as [|[[id j] re] ps]; [done|].
  apply Forall_inv in Hps. simpl in *.
  unfold real_add_job. by rewrite Hps.
Qed.

(** [start()] on a scheduler that was never started: the two info
    records, the four registrations, and then the job store refuses the
    first pending closure. *)
Lemma start_never_started (w : World) :
  never_started w →
  start w
  = Propagates ValueError_not_serializable
      {| jobstore := ∅;
         pending := pending w ++ setup_registrations;
         state := STATE_STOPPED;
         running := running w;
         log := log w ++ [ mkLog INFO "Starting APScheduler";
                           mkLog INFO "Setting up scheduled tasks" ] |}.
Proof.
  intros (Hs & Hj & Hp). unfold start.
  cbn [and_then].
  rewrite setup_schedules_stopped by done.
  cbn [and_then]. unfold scheduler_start.
  cbn [state set_pending logger_info emit pending].
  rewrite Hs.
  rewrite add_pending_jobs_refused.
  - cbn [and_then]. unfold set_pending, logger_info, emit.
    cbn [jobstore state running log pending].
    by rewrite Hs, Hj, <- app_assoc.
  - apply Forall_app. split; [done|apply setup_registrations_unserializable].
  - intros [_ H]%app_eq_nil. discriminate H.
Qed.

Lemma exec_never_started (op : Op) (w : World) :
  never_started w →
  never_started (exec w op) ∧ pending w `prefix_of` pending (exec w op).
Proof.
  intros Hw. pose proof Hw as (Hs & Hj & Hp).
  destruct op as [| |[c m jid p mr kw|id o]]; simpl.
  - rewrite start_never_started by done. simpl. split.
    + split_and!; [done..|].
      apply Forall_app. split; [done|apply setup_registrations_unserializable].
    + by apply prefix_app_r.
  - unfold shutdown, scheduler_shutdown. rewrite Hs. done.
  - rewrite add_job_stopped by done. simpl. split.
    + split_and!; [done..|]. apply Forall_app. split; [done|].
      by repeat constructor.
    + by apply prefix_app_r.
  - unfold fire. rewrite Hs. done.
Qed.

Lemma exec_all_never_started (ops : list Op) (w : World) :
  never_started w →
  never_started (exec_all ops w)
  ∧ pending w `prefix_of` pending (exec_all ops w).
Proof.
  revert w. induction ops as [|op ops IH]; intros w Hw; [done|].
  simpl. destruct (exec_never_started op w Hw) as [Hw1 Hp1].
  destruct (IH _ Hw1) as [Hw2 Hp2]. split; [done|]. by etrans.
Qed.

Lemma init_never_started : never_started init.
Proof. split_and!; [done..|constructor]. Qed.

Lemma no_fire_before_start (ops : list Op) (id : string) (o : Outcome) :
  fire id o (exec_all ops init) = Normal (exec_all ops init).
Proof.
  destruct (exec_all_never_started ops init init_never_started)
    as [(Hs & _) _].
  unfold fire. by rewrite Hs.
Qed.

(** X2.  The scheduler never gets to run.  In every state that
    [start()], [shutdown()], registrations and the dispatch loop can
    bring about, it is not started and its job store is empty;
    registrations are never removed, they pile up as pending in the
    order they were made; and no fire runs anything. *)
Theorem scheduler_never_runs (ops ops' : list Op) :
  let w := exec_all ops init in
  state w = STATE_STOPPED
  ∧ jobstore w = ∅
  ∧ pending w `prefix_of` pending (exec_all ops' w)
  ∧ ∀ id o, fire id o w = Normal w.
Proof.
  intros w.
  destruct (exec_all_never_started ops init init_never_started)
    as [Hw _]. fold w in Hw.
  destruct (exec_all_never_started ops' w Hw) as [_ Hp].
  destruct Hw as (Hs & Hj & _).
  split_and!; [done..|]. intros id o. unfold fire. by rewrite Hs.
Qed.

(** X9.  [start()] never succeeds and [shutdown()] never does either.
    In every state the program can reach, [start()] logs its first
    record and the one of [setup_schedules], files the four
    registrations once more and then leaves with the [ValueError] of the
    job store, which cannot pickle the closure [retryable_job]: the
    scheduler stays stopped, the store empty, and "APScheduler started"
    is not logged.  [shutdown()] leaves with
    [SchedulerNotRunningError] before it logs anything. *)
Theorem start_and_shutdown_always_raise (ops : list Op) :
  let w := exec_all ops init in
  start w
  = Propagates ValueError_not_serializable
      {| jobstore := ∅;
         pending := pending w ++ setup_registrations;
         state := STATE_STOPPED;
         running := false;
         log := log w ++ [ mkLog INFO "Starting APScheduler";
                           mkLog INFO "Setting up scheduled tasks" ] |}
  ∧ shutdown w = Propagates SchedulerNotRunningError w.
Proof.
  intros w.
  destruct (exec_all_never_started ops init init_never_started)
    as [Hw _]. fold w in Hw.
  split.
  - rewrite start_never_started by done.
    unfold w at 2. by rewrite exec_all_running.
  - destruct Hw as (Hs & _). unfold shutdown, scheduler_shutdown.
    by rewrite Hs.
Qed.

(** X8.  [setup_schedules] files its four registrations, with the
    default priority and retry bound and no keywords, each with
    [replace_existing].  On a scheduler that is not started it never
    fails: it logs one info record, appends the four to what is pending
    and leaves the store alone; run again it appends them again, so that
    each id is pending twice.  On a scheduler that runs, the first
    registration fails, after the info record, because the store cannot
    pickle the closure. *)
Theorem setup_schedules_files_four (w : World) :
  (state w = STATE_STOPPED →
   let w1 := world_of (setup_schedules w) in
   let w2 := world_of (setup_schedules w1) in
   setup_schedules w = Normal w1
   ∧ pending w1 = pending w ++ setup_registrations
   ∧ jobstore w1 = jobstore w
   ∧ log w1 = log w ++ [mkLog INFO "Setting up scheduled tasks"]
   ∧ setup_schedules w1 = Normal w2
   ∧ pending w2 = pending w ++ setup_registrations ++ setup_registrations)
  ∧ (state w = STATE_RUNNING →
     let w1 := world_of (setup_schedules w) in
     setup_schedules w = Propagates ValueError_not_serializable w1
     ∧ pending w1 = pending w
     ∧ jobstore w1 = jobstore w
     ∧ log w1 = log w ++ [mkLog INFO "Setting up scheduled tasks"])
  ∧ setup_registrations
    = [ ("update_prices_5",
         main_entry update_prices 5 "update_prices" 3 ∅, true);
        ("fetch_news_5",
         main_entry fetch_crypto_news 30 "fetch_news" 3 ∅, true);
        ("update_portfolio_5",
         main_entry update_portfolio_values 10 "update_portfolio" 3 ∅, true);
        ("monitor_starknet_5",
         main_entry monitor_network_metrics 5 "monitor_starknet" 3 ∅, true) ].
Proof.
  split_and!.
  - intros Hs w1 w2. subst w2 w1.
    rewrite (setup_schedules_stopped w) by done. simpl.
    rewrite setup_schedules_stopped by done. simpl.
    split_and!; try done. by rewrite <- app_assoc.
  - intros Hs w1. subst w1. unfold setup_schedules. simpl.
    rewrite add_job_running by done. done.
  - vm_compute. reflexivity.
Qed.

(** ** Fires *)

Lemma after_submit_source_entry (id : string) (j : Job) (w : World) :
  source_entry j = true → after_submit id j w = w.
Proof.
  unfold source_entry, interval_triggered, after_submit.
  by destruct (trigger j).
Qed.

Lemma call_source_entry (j : Job) (o : Outcome) (w : World) :
  source_entry j = true →
  (∃ c jid mr kw, func j = RetryableJob c jid mr kw
                  ∧ call_job j o w = retryable_job c jid mr kw o w)
  ∨ (∃ c, func j = RunAsyncJob ∧ args j = [c]
          ∧ call_job j o w = _run_async_job c o w).
Proof.
  unfold source_entry, positional_call, call_job, accepts_call.
  intros [_ Hp]%andb_prop.
  destruct (func j) as [c jid mr kw|], (args j) as [|a [|??]]; try done;
    rewrite Hp.
  - left. by exists c, jid, mr, kw.
  - right. by exists a.
Qed.

(** X3.  A fire whose work returns leaves no trace.  In a scheduler that
    runs, the fire of a stored entry built as the source builds them
    returns normally with the job store, the pending registrations, the
    log and the flags exactly as they were; so it is in every state the
    program reaches, and for any sequence of such fires. *)
Theorem successful_fires_change_nothing (ops : list Op) (ids : list string) :
  let w := exec_all ops init in
  (∀ id, fire id Returned w = Normal w)
  ∧ run (fires (map (λ id, (id, Returned)) ids)) w = w
  ∧ (∀ (w0 : World) id j,
       state w0 = STATE_RUNNING →
       jobstore w0 !! id = Some j →
       source_entry j = true →
       fire id Returned w0 = Normal w0)
  ∧ (∀ c jid mr kw w0, retryable_job c jid mr kw Returned w0 = Normal w0)
  ∧ (∀ c w0, _run_async_job c Returned w0 = Normal w0).
Proof.
  intros w.
  assert (∀ id, fire id Returned w = Normal w) as Hone.
  { intros id. by apply (no_fire_before_start ops). }
  split_and!; [done| | |done..].
  - induction ids as [|id ids IH]; [done|].
    simpl. rewrite Hone. exact IH.
  - intros w0 id j Hs Hj Hsrc. unfold fire. rewrite Hs, Hj.
    rewrite after_submit_source_entry by done.
    by destruct (call_source_entry j Returned w0 Hsrc)
      as [(c & jid & mr & kw & _ & ->)|(c & _ & _ & ->)].
Qed.

(** X4.  An exit that is no [Exception] (a cancellation, an interpreter
    exit) is invisible to the wrappers: either body lets it through
    without writing a log record and without asking for a retry, and so
    does the call of any job built as the source builds them, and its
    fire in a scheduler that runs. *)
Theorem non_exception_passes_unlogged (e : PyExc) :
  exc_is_Exception e = false →
  (∀ c jid mr kw w,
     retryable_job c jid mr kw (Raised e) w = Propagates e w)
  ∧ (∀ c w, _run_async_job c (Raised e) w = Propagates e w)
  ∧ (∀ j w, source_entry j = true →
       call_job j (Raised e) w = Propagates e w)
  ∧ (∀ w id j,
       state w = STATE_RUNNING →
       jobstore w !! id = Some j →
       source_entry j = true →
       fire id (Raised e) w = Propagates e w).
Proof.
  intros He.
  assert (∀ j w, source_entry j = true →
            call_job j (Raised e) w = Propagates e w) as Hcall.
  { intros j w Hsrc.
    destruct (call_source_entry j (Raised e) w Hsrc)
      as [(c & jid & mr & kw & _ & ->)|(c & _ & _ & ->)].
    - by apply retryable_job_passes.
    - by apply run_async_job_passes. }
  split_and!.
  - intros. by apply retryable_job_passes.
  - intros. by apply run_async_job_passes.
  - exact Hcall.
  - intros w id j Hs Hj Hsrc. unfold fire. rewrite Hs, Hj.
    rewrite after_submit_source_entry by done. by apply Hcall.
Qed.

Lemma non_exception_passes_unlogged_witness :
  let w := world_of (setup_schedules init) in
  call_job (main_entry fetch_crypto_news 30 "fetch_news" 3 ∅)
    (Raised cancelled) w
  = Propagates cancelled w.
Proof.
  intros w.
  assert (exc_is_Exception cancelled = false) as He by reflexivity.
  destruct (non_exception_passes_unlogged cancelled He) as (_ & _ & H & _).
  apply H. reflexivity.
Defined.

(** ** A job past its retry bound *)

Lemma failing_runs_past_bound c jid N kw e (k : nat) w :
  exc_is_Exception e = true →
  N ≤ kwargs_get kw "retry_count" 0 →
  let w' := failing_runs c jid N kw e k w in
  log w' = log w ++ give_up_records jid N (kwargs_get kw "retry_count" 0) e k
  ∧ jobstore w' = jobstore w
  ∧ pending w' = pending w
  ∧ state w' = state w.
Proof.
  intros He HN. revert w. induction k as [|k IH]; intros w.
  - simpl. by rewrite app_nil_r.
  - cbv zeta. unfold failing_runs. rewrite Nat.iter_succ_r.
    fold (failing_runs c jid N kw e k
            (world_of (retryable_job c jid N kw (Raised e) w))).
    destruct (IH (world_of (retryable_job c jid N kw (Raised e) w)))
      as (-> & -> & -> & ->).
    rewrite retryable_job_terminal by done. simpl.
    split_and!; [|done..]. by rewrite <- !app_assoc.
Qed.

Lemma fires_are_failing_runs (id : string) c m jid N kw e (k : nat) w :
  exc_is_Exception e = true →
  N ≤ kwargs_get kw "retry_count" 0 →
  state w = STATE_RUNNING →
  jobstore w !! id = Some (main_entry c m jid N kw) →
  run (repeat (EvFire id (Raised e)) k) w = failing_runs c jid N kw e k w.
Proof.
  intros He HN. revert w. induction k as [|k IH]; intros w Hs Hj; [done|].
  unfold failing_runs. rewrite Nat.iter_succ_r.
  fold (failing_runs c jid N kw e k
          (world_of (retryable_job c jid N kw (Raised e) w))).
  change (run (repeat ?ev (S k)) w)
    with (run (repeat ev k) (world_of (fire id (Raised e) w))).
  assert (fire id (Raised e) w = retryable_job c jid N kw (Raised e) w) as ->.
  { unfold fire. rewrite Hs, Hj. apply call_main_entry. }
  rewrite retryable_job_terminal by done.
  by apply IH.
Qed.

(** X5.  Giving up is not remembered.  A job whose attempt number has
    reached [max_retries] writes the warning and the give-up record at
    every failing run, [k] times for [k] runs, and returns normally each
    time; nothing is added to the store or to the pending registrations.
    In a scheduler that runs with the job's schedule in its store, [k]
    failing fires are [k] such runs, and the schedule stays. *)
Theorem give_up_is_repeated_at_every_fire c jid N kw e (k : nat) w :
  exc_is_Exception e = true →
  N ≤ kwargs_get kw "retry_count" 0 →
  let rc := kwargs_get kw "retry_count" 0 in
  let w' := failing_runs c jid N kw e k w in
  retryable_job c jid N kw (Raised e) w'
  = Normal (failing_runs c jid N kw e (S k) w)
  ∧ log w' = log w ++ give_up_records jid N rc e k
  ∧ jobstore w' = jobstore w
  ∧ pending w' = pending w
  ∧ (∀ id m,
       state w = STATE_RUNNING →
       jobstore w !! id = Some (main_entry c m jid N kw) →
       run (repeat (EvFire id (Raised e)) k) w = w').
Proof.
  intros He HN rc w'.
  destruct (failing_runs_past_bound c jid N kw e k w He HN)
    as (Hl & Hj & Hp & _).
  split_and!; [|done..|].
  - rewrite failing_runs_S. fold w'.
    by rewrite retryable_job_terminal.
  - intros id m Hs Hid. by apply (fires_are_failing_runs id c m).
Qed.

Lemma give_up_is_repeated_at_every_fire_witness :
  let w := failing_runs ping "ping" 0 ∅ boom 2 init in
  log w = [ mkLog WARNING "Job ping failed on attempt 1: boom";
            mkLog ERROR "ping failed after 0 retries";
            mkLog WARNING "Job ping failed on attempt 1: boom";
            mkLog ERROR "ping failed after 0 retries" ]
  ∧ jobstore w = ∅
  ∧ pending w = [].
Proof.
  assert (exc_is_Exception boom = true) as He by reflexivity.
  assert (0 ≤ kwargs_get ∅ "retry_count" 0) as HN by reflexivity.
  destruct (give_up_is_repeated_at_every_fire ping "ping" 0 ∅ boom 2 init
              He HN) as (_ & Hl & Hj & Hp & _).
  split_and!; [exact Hl|exact Hj|exact Hp].
Defined.

(** * [setup_logger] *)

Section setup_logger.
Context `{PyRuntime}.

Lemma log_file_is_not_log_dir : log_file ≠ log_dir.
Proof. by vm_compute. Qed.

(** Case analysis along the control flow of [setup_logger]: the state of
    [logs], the registry entry, the level lookup, the handler list, the
    state of the log file. *)
Ltac setup_logger_cases env name lvl :=
  unfold setup_logger, mkdir_exist_ok, getLogger, open_append;
  generalize (logger_key name); intros key;
  destruct (fs env !! log_dir) as [[|]|] eqn:Hdir; simpl;
  destruct (loggers env !! key) as [lg|] eqn:Hlg; simpl;
  destruct (logging_level (str_upper lvl)) as [z| |] eqn:Hlvl; simpl;
  try (destruct (lg_handlers lg) as [|h hs] eqn:Hh; simpl);
  rewrite ?(lookup_insert_ne _ log_dir log_file)
    by (apply not_eq_sym, log_file_is_not_log_dir);
  try (destruct (fs env !! log_file) as [[|]|] eqn:Hfile; simpl).

Ltac handlers_lookup :=
  unfold set_logger; simpl;
  rewrite ?lookup_insert; repeat case_decide; subst; simpl;
  repeat match goal with
         | Hl : loggers _ !! _ = _ |- _ => rewrite Hl; simpl
         | Hh : lg_handlers _ = _ |- _ => rewrite Hh
         end.

(** What one call does to the handlers of any name: nothing, or, for a
    name without handlers, the two handlers of the source. *)
Lemma setup_logger_handlers (name lvl n : string) (env : LogEnv) :
  let env' := env_of (setup_logger name lvl env) in
  handlers_of env' n = handlers_of env n
  ∨ (handlers_of env n = []
     ∧ handlers_of env' n = [file_handler; console_handler]).
Proof.
  unfold handlers_of. generalize (logger_key n). intros kn.
  setup_logger_cases env name lvl; handlers_lookup; auto.
Qed.

(** What a returning call has done, in terms of the logger object. *)
Lemma setup_logger_returns (name lvl : string) (env : LogEnv)
    (l : string) (env' : LogEnv) :
  setup_logger name lvl env = LReturn l env' →
  l = logger_key name
  ∧ (∃ z, logging_level (str_upper lvl) = LevelOk z
          ∧ level_of env' name = Some z)
  ∧ handlers_of env' name
    = match handlers_of env name with
      | [] => [file_handler; console_handler]
      | hs => hs
      end
  ∧ fs env' !! log_dir = Some FsDir
  ∧ (handlers_of env name = [] → fs env' !! log_file = Some FsFile)
  ∧ (∀ n, n ≠ logger_key name → loggers env' !! n = loggers env !! n).
Proof.
  pose proof log_file_is_not_log_dir as Hne.
  assert (log_dir ≠ log_file) as Hne' by done.
  unfold level_of, handlers_of.
  setup_logger_cases env name lvl;
    intros Hret; try discriminate; injection Hret as <- <-; simpl;
    rewrite ?lookup_insert_eq, ?Hlg; simpl; rewrite ?Hh;
    (split_and!;
     [done
     |by exists z
     |done
     |by simplify_map_eq
     |intros Hnil; by simplify_map_eq
     |intros n Hn; by simplify_map_eq]).
Qed.

Lemma setup_logger_configured (name lvl : string) (env : LogEnv)
    (lg : Logger) (z : Z) :
  fs env !! log_dir = Some FsDir →
  loggers env !! logger_key name = Some lg →
  lg_handlers lg ≠ [] →
  logging_level (str_upper lvl) = LevelOk z →
  setup_logger name lvl env
  = LReturn (logger_key name)
      (set_logger (logger_key name) (mkLogger z (lg_handlers lg)) env).
Proof.
  intros Hdir Hlg Hh Hlvl.
  unfold setup_logger, mkdir_exist_ok, getLogger.
  rewrite Hdir, Hlg, Hlvl. simpl. by destruct (lg_handlers lg).
Qed.

(** X10.  Handlers are never duplicated.  After any number of calls of
    [setup_logger], for any names and levels and whether they returned
    or raised, a logger has the handlers it had before, or, if it had
    none, the file handler and the console handler, once each. *)
Theorem handlers_never_duplicated (calls : list (string * string))
    (env : LogEnv) (n : string) :
  handlers_of (setup_loggers calls env) n = handlers_of env n
  ∨ (handlers_of env n = []
     ∧ handlers_of (setup_loggers calls env) n
       = [file_handler; console_handler]).
Proof.
  revert env. induction calls as [|[name lvl] calls IH]; intros env;
    [by left|].
  simpl.
  destruct (IH (env_of (setup_logger name lvl env))) as [Hf|[Hf1 Hf2]],
    (setup_logger_handlers name lvl n env) as [Hs|[Hs1 Hs2]].
  - left. congruence.
  - right. split; [done|congruence].
  - right. split; [congruence|done].
  - congruence.
Qed.

(** X11.  What a returning call has done: the level name resolved; the
    logger returned is the one [name] stands for, the root logger for
    the empty name and for [root], and it has that level; its handlers
    are the ones it had or, if it had none, the file handler at [DEBUG]
    and the console handler at [INFO] whatever level was asked for;
    [logs] is a directory, the log file exists if handlers were added,
    and no other logger object was touched. *)
Theorem setup_logger_on_return (name lvl : string) (env : LogEnv)
    (l : string) (env' : LogEnv) :
  setup_logger name lvl env = LReturn l env' →
  l = logger_key name
  ∧ (logger_key EmptyString = "root" ∧ logger_key "root" = "root"
     ∧ (name ≠ EmptyString → logger_key name = name))
  ∧ (∃ z, logging_level (str_upper lvl) = LevelOk z
          ∧ level_of env' name = Some z)
  ∧ handlers_of env' name
    = match handlers_of env name with
      | [] => [file_handler; console_handler]
      | hs => hs
      end
  ∧ fs env' !! log_dir = Some FsDir
  ∧ (handlers_of env name = [] → fs env' !! log_file = Some FsFile)
  ∧ (∀ n, n ≠ logger_key name → loggers env' !! n = loggers env !! n).
Proof.
  intros Hret.
  destruct (setup_logger_returns _ _ _ _ _ Hret)
    as (Hl & Hz & Hh & Hdir & Hfile & Hothers).
  split_and!; try done.
  intros Hn. unfold logger_key. by rewrite bool_decide_eq_false_2.
Qed.

(** X12.  A further call on a logger that a call has set up adds no
    handler and leaves the file system alone: it sets the logger's level
    to the level it is given and nothing else.  With the same level it
    changes nothing at all. *)
Theorem repeated_setup_only_sets_level (name lvl lvl2 : string)
    (env : LogEnv) (l : string) (env' : LogEnv) (z2 : Z) :
  setup_logger name lvl env = LReturn l env' →
  logging_level (str_upper lvl2) = LevelOk z2 →
  setup_logger name lvl env' = LReturn (logger_key name) env'
  ∧ setup_logger name lvl2 env'
    = LReturn (logger_key name)
        (set_logger (logger_key name)
           (mkLogger z2 (handlers_of env' name)) env').
Proof.
  intros Hret Hlvl2.
  destruct (setup_logger_returns _ _ _ _ _ Hret)
    as (_ & (z & Hz & Hlev) & Hh & Hdir & _ & _).
  unfold level_of in Hlev.
  destruct (loggers env' !! logger_key name) as [lg|] eqn:Hlg; [|done].
  injection Hlev as Hlev.
  assert (handlers_of env' name = lg_handlers lg) as Hho
    by (unfold handlers_of; by rewrite Hlg).
  assert (lg_handlers lg ≠ []) as Hne.
  { rewrite <- Hho, Hh. by destruct (handlers_of env name). }
  split.
  - rewrite (setup_logger_configured name lvl env' lg z) by done.
    f_equal. unfold set_logger. destruct env' as [fs' lgs']. simpl in *.
    f_equal. apply insert_id. rewrite Hlg. f_equal.
    destruct lg. simpl in *. by subst.
  - rewrite Hho. by apply setup_logger_configured.
Qed.

(** X13.  What a raising call leaves behind.  It never changes the
    handlers of any logger nor the log file.  If [logs] is a regular file
    nothing has changed at all.  In every other case [logs] has been
    created and the logger registered: an unknown level name raises
    [AttributeError] after that, and when the log file's path is a
    directory the logger's level has been set before
    [IsADirectoryError]. *)
Theorem setup_logger_on_raise (name lvl : string) (env : LogEnv)
    (e : PyExc) (env' : LogEnv) :
  setup_logger name lvl env = LRaise e env' →
  (∀ n, handlers_of env' n = handlers_of env n)
  ∧ fs env' !! log_file = fs env !! log_file
  ∧ ((e = FileExistsError ∧ fs env !! log_dir = Some FsFile ∧ env' = env)
     ∨ (fs env' !! log_dir = Some FsDir
        ∧ is_Some (loggers env' !! logger_key name)
        ∧ ((e = AttributeError
            ∧ logging_level (str_upper lvl) = LevelMissing
            ∧ (is_Some (loggers env !! logger_key name) →
               level_of env' name = level_of env name))
           ∨ (e = LevelError
              ∧ logging_level (str_upper lvl) = LevelRejected
              ∧ (is_Some (loggers env !! logger_key name) →
                 level_of env' name = level_of env name))
           ∨ (e = IsADirectoryError
              ∧ fs env !! log_file = Some FsDir
              ∧ handlers_of env name = []
              ∧ ∃ z, logging_level (str_upper lvl) = LevelOk z
                     ∧ level_of env' name = Some z)))).
Proof.
  pose proof log_file_is_not_log_dir as Hne.
  unfold level_of, handlers_of. setup_logger_cases env name lvl;
    intros Hret; try discriminate; injection Hret as <- <-;
    (split_and!;
     [intros n; generalize (logger_key n); intros kn; handlers_lookup; done
     |simpl; by rewrite ?lookup_insert_ne by done
     |]);
    try (left; by split_and!);
    right; simpl; rewrite ?lookup_insert_eq, ?Hlg, ?Hdir;
    (split_and!; [done|by eexists|]);
    first
      [ left; split_and!;
        [done|done|intros Hs; first [done|by destruct Hs as [? [=]]]]
      | right; left; split_and!;
        [done|done|intros Hs; first [done|by destruct Hs as [? [=]]]]
      | right; right; split_and!;
        [done|done|handlers_lookup; done|by eexists] ].
Qed.

End setup_logger.

Lemma setup_logger_on_return_witness :
  let env' := env_of (@setup_logger sample_runtime EmptyString "debug"
                        empty_env) in
  @setup_logger sample_runtime EmptyString "debug" empty_env
  = LReturn "root" env'
  ∧ level_of env' "root" = Some 10
  ∧ handlers_of env' EmptyString = [file_handler; console_handler].
Proof.
  intros env'.
  assert (@setup_logger sample_runtime EmptyString "debug" empty_env
          = LReturn "root" env') as Hret by (vm_compute; reflexivity).
  destruct (@setup_logger_on_return sample_runtime _ _ _ _ _ Hret)
    as (_ & _ & (z & Hz & Hlev) & Hh & _).
  split_and!; [exact Hret| |exact Hh].
  change (level_of env' "root") with (level_of env' EmptyString).
  rewrite Hlev. f_equal. vm_compute in Hz. by injection Hz.
Defined.

Lemma repeated_setup_only_sets_level_witness :
  let env' := env_of (@setup_logger sample_runtime "scheduler" "INFO"
                        empty_env) in
  @setup_logger sample_runtime "scheduler" "INFO" env'
  = LReturn "scheduler" env'.
Proof.
  intros env'.
  assert (@setup_logger sample_runtime "scheduler" "INFO" empty_env
          = LReturn "scheduler" env') as Hret by (vm_compute; reflexivity).
  assert (@logging_level sample_runtime (@str_upper sample_runtime "error")
          = LevelOk 40) as Hl by (vm_compute; reflexivity).
  destruct (@repeated_setup_only_sets_level sample_runtime
              "scheduler" "INFO" "error" empty_env "scheduler" env' 40
              Hret Hl) as [Hsame _].
  exact Hsame.
Defined.

Lemma setup_logger_on_raise_witness :
  let env' := env_of (@setup_logger sample_runtime "scheduler" "verbose"
                        empty_env) in
  fs env' !! log_dir = Some FsDir
  ∧ is_Some (loggers env' !! "scheduler")
  ∧ handlers_of env' "scheduler" = [].
Proof.
  intros env'.
  assert (@setup_logger sample_runtime "scheduler" "verbose" empty_env
          = LRaise AttributeError env') as Hret by (vm_compute; reflexivity).
  destruct (@setup_logger_on_raise sample_runtime _ _ _ _ _ Hret)
    as (Hh & _ & [(_ & Hfile & _)|(Hdir & Hreg & _)]).
  - vm_compute in Hfile. discriminate.
  - split_and!; [exact Hdir|exact Hreg|by rewrite Hh].
Defined.
